(** * tmp_update_index.py: the text patcher

    The script reads one file as text, removes three literal lines from it
    with [str.replace], writes the text back and prints a confirmation.
    This development embeds the script and the library calls it makes
    ([str.replace], [Path.read_text], [Path.write_text], [print]) and
    settles the properties stated about them. *)

From Stdlib Require Import Ascii String.
From Stdlib.Strings Require Import Byte.
From Equations Require Import Equations.
From stdpp Require Import list strings gmap.

(** ** Python strings

    A Python [str] is a sequence of code points.  The operations below are
    written over any character type with decidable equality; the script
    instantiates them with code points. *)

Section PyStr.
Context {A : Type} `{EqDecision A}.

(** [s.startswith(p)] *)
Fixpoint startswith (s p : list A) {struct p} : bool :=
  match p, s with
  | [], _ => true
  | _ :: _, [] => false
  | a :: p', b :: s' => if decide (a = b) then startswith s' p' else false
  end.

(** [s.endswith(p)] *)
Definition endswith (s p : list A) : bool :=
  startswith (reverse s) (reverse p).

(** [p in s] *)
Fixpoint contains (p s : list A) : bool :=
  startswith s p ||
  match s with
  | [] => false
  | _ :: s' => contains p s'
  end.

(** Number of positions of [s] at which [p] occurs. *)
Fixpoint occurrences (p s : list A) : nat :=
  (if startswith s p then 1 else 0) +
  match s with
  | [] => 0
  | _ :: s' => occurrences p s'
  end.

(** [s.replace(old, new)] for a non-empty [old = o :: old']: scan from
    the left; at an occurrence emit [new] and jump past it, otherwise
    copy one character. *)
Equations? replace_scan (s : list A) (o : A) (old' new : list A) : list A
  by wf (length s) lt :=
  replace_scan [] o old' new := [];
  replace_scan (c :: s') o old' new with startswith (c :: s') (o :: old') := {
    | true => new ++ replace_scan (drop (length old') s') o old' new
    | false => c :: replace_scan s' o old' new }.
Proof.
  - rewrite length_drop. simpl. apply Nat.lt_succ_r, Nat.le_sub_l.
  - simpl. apply Nat.lt_succ_diag_r.
Qed.

(** [s.replace(old, new)].  With an empty [old], Python puts [new] before
    every character and at the end. *)
Definition replace (s old new : list A) : list A :=
  match old with
  | [] => new ++ mjoin ((λ c, c :: new) <$> s)
  | o :: old' => replace_scan s o old' new
  end.

(** The text of the spec, "replacing every occurrence of the pattern with
    the empty string", read literally: position [i] of [s] is covered when
    some occurrence of [p] in [s] stretches over it, and the result keeps
    the characters that are not covered. *)
Definition covered (p s : list A) (i : nat) : bool :=
  existsb (λ j, bool_decide (i < j + length p) && startswith (drop j s) p)
          (seq 0 (S i)).

Definition delete_occurrences (p s : list A) : list A :=
  mjoin (imap (λ i c, if covered p s i then [] else [c]) s).

(** The characters kept by [delete_occurrences] from position [k] on. *)
Definition delete_from (p s : list A) (k : nat) : list A :=
  mjoin (imap (λ i c, if covered p s (k + i) then [] else [c]) (drop k s)).

(** A pattern has no overlap when two of its occurrences in a text never
    share a character. *)
Definition no_overlap (p : list A) : Prop :=
  ∀ s j d, startswith (drop j s) p = true →
           startswith (drop (j + d) s) p = true →
           d < length p → d = 0.

(** Lines: [unlines ls r] is the text made of the newline-terminated lines
    [ls] followed by the unterminated rest [r]; [lines] splits a text that
    way. *)
Variable nl : A.

Definition unlines (ls : list (list A)) (r : list A) : list A :=
  foldr (λ x acc, x ++ nl :: acc) r ls.

Fixpoint lines (s : list A) : list (list A) * list A :=
  match s with
  | [] => ([], [])
  | c :: s' =>
      let '(ls, r) := lines s' in
      if decide (c = nl) then ([] :: ls, r)
      else match ls with
           | [] => ([], c :: r)
           | x :: ls' => ((c :: x) :: ls', r)
           end
  end.
End PyStr.

(** ** The script *)

Definition char : Type := N.
Definition str : Type := list char.

(** A string literal of the source as a [str]. *)
Definition lit (s : string) : str := N_of_ascii <$> list_ascii_of_string s.

(** ["\n"] *)
Definition LF : char := 10%N.

Definition import_line : str :=
  lit "import { startSepoliaWatcher } from './sepoliaWatcher.js'".
Definition const_line : str :=
  lit "  const stopSepoliaWatcher = startSepoliaWatcher(ctx, store)".
Definition call_line : str :=
  lit "    stopSepoliaWatcher()".

(** The three [old] arguments, each a line's text and its ["\n"]. *)
Definition import_pattern : str := import_line ++ [LF].
Definition const_pattern : str := const_line ++ [LF].
Definition call_pattern : str := call_line ++ [LF].

Definition pattern_lines : list str := [import_line; const_line; call_line].
Definition patterns : list str := [import_pattern; const_pattern; call_pattern].

(** Lines 6 to 8: the three reassignments of [text]. *)
Definition patch (text : str) : str :=
  let text := replace text import_pattern [] in
  let text := replace text const_pattern [] in
  let text := replace text call_pattern [] in
  text.

(** A text in which a pattern occurs as whole lines only: every
    newline-terminated line that ends in the text [l] of the pattern is
    that text; and a text in which this holds of the three patterns. *)
Definition whole_line (l text : str) : bool :=
  forallb (λ x, implb (endswith x l) (bool_decide (x = l))) (lines LF text).1.

Definition whole_lines (text : str) : bool :=
  forallb (λ l, whole_line l text) pattern_lines.

(** Newline-terminated lines that are not the text of a pattern. *)
Definition other_lines (ls : list str) : list str :=
  filter (λ x, x ∉ pattern_lines) ls.

(** What one removal leaves of a newline-terminated line [x]: a line that
    ends in the text [l] of the pattern loses that text and its newline,
    any other line is kept with its newline. *)
Definition remove_line (l x : str) : str :=
  if endswith x l then take (length x - length l) x else x ++ [LF].

(** *** Files and standard output

    A file holds the text that [read_text] returns for it and that
    [write_text] is given; how the host encodes text is not modelled.
    Opening fails with the error of the host: the path is missing, is a
    directory, or the permission is not there. *)

Inductive OSError : Type :=
  | FileNotFoundError
  | IsADirectoryError
  | PermissionError.

Inductive node : Type :=
  | File (readable writable : bool) (content : str)
  | Directory.

(** What a run has done, in order; an entry is added when the call
    returns. *)
Inductive event : Type :=
  | ReadText (path : string)
  | WriteText (path : string) (data : str)
  | Print (line : str).

Record state : Type := State {
  files : gmap string node;
  stdout : str;
  trace : list event
}.

Inductive result (A : Type) : Type :=
  | Ok (a : A)
  | Raise (e : OSError).
Arguments Ok {A} a.
Arguments Raise {A} e.

(** Computations that read and change the state and may raise. *)
Definition M (A : Type) : Type := state → result A * state.

#[global] Instance M_ret : MRet M := λ A a σ, (Ok a, σ).
#[global] Instance M_bind : MBind M := λ A B f m σ,
  match m σ with
  | (Ok a, σ') => f a σ'
  | (Raise e, σ') => (Raise e, σ')
  end.

(** [Path.read_text()] *)
Definition read_text (path : string) : M str := λ σ,
  match files σ !! path with
  | None => (Raise FileNotFoundError, σ)
  | Some Directory => (Raise IsADirectoryError, σ)
  | Some (File r w content) =>
      if r then
        (Ok content, State (files σ) (stdout σ) (trace σ ++ [ReadText path]))
      else (Raise PermissionError, σ)
  end.

(** [Path.write_text(data)]: the file is opened for writing, which creates
    it when the path is free, and gets [data] as its whole content. *)
Definition write_text (path : string) (data : str) : M unit := λ σ,
  let written f :=
    (Ok (), State (<[path := f]> (files σ)) (stdout σ)
                  (trace σ ++ [WriteText path data])) in
  match files σ !! path with
  | None => written (File true true data)
  | Some Directory => (Raise IsADirectoryError, σ)
  | Some (File r w _) =>
      if w then written (File r w data) else (Raise PermissionError, σ)
  end.

(** [print(line)] *)
Definition print (line : str) : M unit := λ σ,
  (Ok (), State (files σ) (stdout σ ++ line ++ [LF]) (trace σ ++ [Print line])).

Definition path : string := "/home/ubuntu/Mean-Time/backend/src/index.ts".

(** The module body. *)
Definition main : M unit :=
  text ← read_text path;
  let text := patch text in
  write_text path text;;
  print (lit "updated index.ts").

(** A process: what the host hands to a run.  The script looks at the
    files only; standard output starts empty.  Files hold text here; the
    bytes behind them and the encodings the host takes from the
    environment are in the host model below. *)
Record process : Type := Process {
  argv : list string;
  environ : gmap string string;
  disk : gmap string node
}.

Definition run (π : process) : result unit * state :=
  main (State (disk π) [] []).

(** *** Sample texts *)

(** The text whose newline-terminated lines are [ls], followed by the
    unterminated [rest]. *)
Definition text_of (ls : list string) (rest : string) : str :=
  unlines LF (lit <$> ls) (lit rest).

(** The input of the concrete scenario as it is shown: the call to
    [stopSepoliaWatcher] is indented by two spaces. *)
Definition scenario_input : str :=
  text_of ["import { startSepoliaWatcher } from './sepoliaWatcher.js'";
           "function main() {";
           "  const stopSepoliaWatcher = startSepoliaWatcher(ctx, store)";
           "  doWork()";
           "  stopSepoliaWatcher()";
           "}"] "".

(** The same input and output without the newline after the last line. *)
Definition scenario_input_open : str :=
  text_of ["import { startSepoliaWatcher } from './sepoliaWatcher.js'";
           "function main() {";
           "  const stopSepoliaWatcher = startSepoliaWatcher(ctx, store)";
           "  doWork()";
           "  stopSepoliaWatcher()"] "}".

(** The output the scenario expects. *)
Definition scenario_output : str :=
  text_of ["function main() {"; "  doWork()"; "}"] "".

Definition scenario_output_open : str :=
  text_of ["function main() {"; "  doWork()"] "}".

(** The output the script gives for [scenario_input]. *)
Definition scenario_result : str :=
  text_of ["function main() {"; "  doWork()"; "  stopSepoliaWatcher()"; "}"] "".

(** The scenario with the call indented by four spaces, as the third
    pattern has it. *)
Definition scenario_input_nested : str :=
  text_of ["import { startSepoliaWatcher } from './sepoliaWatcher.js'";
           "function main() {";
           "  const stopSepoliaWatcher = startSepoliaWatcher(ctx, store)";
           "  doWork()";
           "    stopSepoliaWatcher()";
           "}"] "".

(** The scenario without a match. *)
Definition scenario_no_match : str := lit "function main() { doWork() }".

(** The call pattern in the middle of what becomes the call pattern once
    it is removed. *)
Definition split_call : str :=
  lit "    stop" ++ call_pattern ++ lit "SepoliaWatcher()" ++ [LF].

(** Each pattern once, the call pattern inside [split_call]. *)
Definition once_each : str := import_pattern ++ const_pattern ++ split_call.

(** The call pattern in the middle of what becomes the import pattern. *)
Definition split_import : str :=
  lit "import { start" ++ call_pattern
  ++ lit "SepoliaWatcher } from './sepoliaWatcher.js'" ++ [LF].

(** A process whose disk holds one readable and writable file at [path]. *)
Definition process_with (content : str) : process :=
  Process [] ∅ {[path := File true true content]}.


(** *** The host: bytes and encodings

    The script passes no encoding to [read_text] and [write_text] and none
    to [print], so the host chooses them, from its environment.  Here a
    file holds bytes, standard output is bytes, and the three calls go
    through the codec the host has chosen. *)

Definition bytes : Type := list byte.




(** ["\r"] *)
Definition CR : char := 13%N.

(** Reading in text mode without a [newline] argument: ["\r\n"] and a
    lone ["\r"] come out as ["\n"]. *)
Fixpoint universal_newlines (text : str) : str :=
  match text with
  | [] => []
  | c :: text' =>
      if decide (c = CR) then
        LF :: match text' with
              | c' :: text'' =>
                  if decide (c' = LF) then universal_newlines text''
                  else universal_newlines text'
              | [] => []
              end
      else c :: universal_newlines text'
  end.

Inductive exn : Type :=
  | OSErr (e : OSError)
  | UnicodeDecodeError
  | UnicodeEncodeError.

Inductive host_node : Type :=
  | HostFile (readable writable : bool) (content : bytes)
  | HostDirectory.

Record host_state : Type := HostState {
  host_files : gmap string host_node;
  host_stdout : bytes
}.

Inductive outcome (A : Type) : Type :=
  | Returned (a : A)
  | Raised (e : exn).
Arguments Returned {A} a.
Arguments Raised {A} e.

Definition HostM (A : Type) : Type := host_state → outcome A * host_state.

#[global] Instance HostM_ret : MRet HostM := λ A a σ, (Returned a, σ).

















(** ** Facts about the string operations *)

Section PyStrFacts.
Context {A : Type} `{EqDecision A}.
Implicit Types s p t x l : list A.

Lemma startswith_spec s p : startswith s p = true ↔ ∃ t, s = p ++ t.
Proof.
  revert s; induction p as [|a p IH]; intros s; simpl.
  - split; [intros _; by exists s | done].
  - destruct s as [|b s].
    + split; [done | intros [t Ht]; discriminate].
    + case_decide as Hab.
      * subst b. rewrite IH. split; intros [t Ht]; exists t; congruence.
      * split; [done | intros [t Ht]; congruence].
Qed.

Lemma startswith_app p t : startswith (p ++ t) p = true.
Proof. apply startswith_spec; eauto. Qed.

Lemma startswith_nil_false p : p ≠ [] → startswith [] p = false.
Proof. by destruct p. Qed.

Lemma endswith_spec s p : endswith s p = true ↔ p `suffix_of` s.
Proof.
  unfold endswith. rewrite startswith_spec. split.
  - intros [t Ht]. exists (reverse t).
    by rewrite <- (reverse_involutive s), Ht, reverse_app, reverse_involutive.
  - intros [k ->]. exists (reverse k). by rewrite reverse_app.
Qed.

(** The three equations that define [replace] for a non-empty pattern. *)
Lemma replace_nil p new : p ≠ [] → replace [] p new = [].
Proof. destruct p; [done | intros _; simpl; by simp replace_scan]. Qed.

Lemma replace_hit p t new :
  p ≠ [] → replace (p ++ t) p new = new ++ replace t p new.
Proof.
  destruct p as [|o old]; [done | intros _]. simpl.
  simp replace_scan.
  change (o :: old ++ t) with ((o :: old) ++ t).
  rewrite startswith_app. simpl.
  by rewrite drop_app_length.
Qed.

Lemma replace_miss c s p new :
  startswith (c :: s) p = false →
  replace (c :: s) p new = c :: replace s p new.
Proof.
  destruct p as [|o old]; [done | intros Hm]. simpl.
  simp replace_scan. by rewrite Hm.
Qed.

(** Induction along the scan of [replace]. *)
Lemma replace_ind p new (P : list A → list A → Prop) :
  p ≠ [] →
  P [] [] →
  (∀ t r, P t r → P (p ++ t) (new ++ r)) →
  (∀ c s r, startswith (c :: s) p = false → P s r → P (c :: s) (c :: r)) →
  ∀ s, P s (replace s p new).
Proof.
  intros Hp Hnil Hhit Hmiss s.
  induction (Nat.lt_wf_0_projected length s) as [s _ IH].
  destruct s as [|c s]; [by rewrite replace_nil |].
  destruct (startswith (c :: s) p) eqn:Hm.
  - apply startswith_spec in Hm as [t Ht]. rewrite Ht, replace_hit by done.
    apply Hhit, IH. rewrite Ht, length_app.
    destruct p; [done | simpl; lia].
  - rewrite replace_miss by done. apply Hmiss; [done |]. apply IH. simpl; lia.
Qed.

Lemma contains_false_cons p c s :
  contains p (c :: s) = false →
  startswith (c :: s) p = false ∧ contains p s = false.
Proof. simpl. by intros [??]%orb_false_elim. Qed.

Lemma contains_occurrences p s :
  contains p s = false ↔ occurrences p s = 0.
Proof.
  induction s as [|c s IH]; simpl.
  - rewrite orb_false_r. destruct (startswith [] p); split; (done || lia).
  - rewrite orb_false_iff, IH.
    destruct (startswith (c :: s) p); split; (lia || intros [??]; (done || lia) || (intros; split; (done || lia))).
Qed.

Lemma startswith_contains p s : startswith s p = true → contains p s = true.
Proof. intros Hm. destruct s; simpl; by rewrite Hm. Qed.

Lemma contains_app_hit p u t : contains p (u ++ p ++ t) = true.
Proof.
  induction u as [|c u IH]; simpl.
  - apply startswith_contains, startswith_app.
  - rewrite IH. apply orb_true_r.
Qed.

Lemma contains_spec p s : contains p s = true ↔ ∃ u t, s = u ++ p ++ t.
Proof.
  split.
  - induction s as [|c s IH]; simpl; intros [Hm|Hc]%orb_true_iff.
    + apply startswith_spec in Hm as [t ->]. by exists [], t.
    + done.
    + apply startswith_spec in Hm as [t ->]. by exists [], t.
    + destruct (IH Hc) as (u & t & ->). by exists (c :: u), t.
  - intros (u & t & ->). apply contains_app_hit.
Qed.

(** A pattern that does not occur is left alone. *)
Lemma replace_absent s p new :
  p ≠ [] → contains p s = false → replace s p new = s.
Proof.
  intros Hp. revert s.
  apply (replace_ind p new (λ s r, contains p s = false → r = s)); [done | done | |].
  - intros t r _ Hc. pose proof (contains_app_hit p [] t) as Hh.
    simpl in Hh. congruence.
  - intros c s r _ IH [_ Hc]%contains_false_cons. by rewrite IH.
Qed.

(** Removal only deletes characters. *)
Lemma replace_sublist s p : p ≠ [] → replace s p [] `sublist_of` s.
Proof.
  intros Hp. revert s. apply (replace_ind p [] (λ s r, r `sublist_of` s)); [done | done | |].
  - intros t r Hr. simpl. by apply sublist_inserts_l.
  - intros c s r _ Hr. by apply sublist_skip.
Qed.

Lemma replace_length s p : p ≠ [] → length (replace s p []) ≤ length s.
Proof. intros Hp. by apply sublist_length, replace_sublist. Qed.

(** Removal of a pattern that occurs makes the text shorter. *)
Lemma replace_shorter_aux s p :
  p ≠ [] →
  length (replace s p []) ≤ length s ∧
  (contains p s = true → length (replace s p []) < length s).
Proof.
  intros Hp. revert s.
  apply (replace_ind p []
           (λ s r, length r ≤ length s ∧
                   (contains p s = true → length r < length s)));
    [done | | |].
  - split; [done |]. simpl. by rewrite startswith_nil_false.
  - intros t r [Hle _]. simpl. rewrite length_app.
    destruct p; [done | simpl; lia].
  - intros c s r Hm [Hle IH]. simpl. rewrite Hm. simpl.
    split; [lia |]. intros Hc%IH. lia.
Qed.

Lemma replace_present_shorter s p :
  p ≠ [] → contains p s = true → length (replace s p []) < length s.
Proof. intros Hp. by apply replace_shorter_aux. Qed.

(** The texts a removal leaves alone are those without the pattern. *)
Lemma replace_fixed_iff s p :
  p ≠ [] → replace s p [] = s ↔ contains p s = false.
Proof.
  intros Hp. split; [|by apply replace_absent].
  intros Heq. destruct (contains p s) eqn:Hc; [|done].
  apply (replace_present_shorter s p Hp) in Hc. rewrite Heq in Hc. lia.
Qed.
(** *** The scan against the literal reading of "every occurrence" *)

Lemma covered_spec p s i :
  covered p s i = true ↔
  ∃ j, j ≤ i ∧ i < j + length p ∧ startswith (drop j s) p = true.
Proof.
  unfold covered. rewrite existsb_exists. split.
  - intros (j & Hj%in_seq & [Hlt%bool_decide_eq_true Hm]%andb_true_iff).
    exists j. split_and!; [lia | done | done].
  - intros (j & Hle & Hlt & Hm). exists j. split; [apply in_seq; lia |].
    apply andb_true_iff. split; [by apply bool_decide_eq_true | done].
Qed.

Lemma delete_from_0 p s : delete_from p s 0 = delete_occurrences p s.
Proof. done. Qed.

Lemma delete_from_end p s k : length s ≤ k → delete_from p s k = [].
Proof. intros Hk. unfold delete_from. by rewrite drop_ge. Qed.

Lemma delete_from_step p s k c :
  s !! k = Some c →
  delete_from p s k
  = (if covered p s k then [] else [c]) ++ delete_from p s (S k).
Proof.
  intros Hk. unfold delete_from. rewrite (drop_S s c k Hk). simpl.
  rewrite Nat.add_0_r. f_equal. f_equal. apply imap_ext.
  intros i x _. simpl. by rewrite Nat.add_succ_r.
Qed.

Lemma delete_from_skip p s k d :
  startswith (drop k s) p = true → d ≤ length p →
  delete_from p s k = delete_from p s (k + d).
Proof.
  intros Hm. induction d as [|d IH]; intros Hd.
  - by rewrite Nat.add_0_r.
  - rewrite IH by lia.
    destruct (s !! (k + d)) as [c|] eqn:Hc.
    + rewrite (delete_from_step p s (k + d) c Hc), Nat.add_succ_r.
      assert (covered p s (k + d) = true) as ->; [|done].
      apply covered_spec. exists k. split_and!; [lia | lia | done].
    + apply lookup_ge_None in Hc.
      by rewrite !delete_from_end by lia.
Qed.

Lemma replace_delete_from p s k :
  p ≠ [] → no_overlap p →
  (∀ j, j < k → startswith (drop j s) p = true → j + length p ≤ k) →
  replace (drop k s) p [] = delete_from p s k.
Proof.
  intros Hp Hno.
  remember (length s - k) as n eqn:Hn. revert k Hn.
  induction (lt_wf n) as [n _ IH]. intros k Hn Hinv.
  destruct (s !! k) as [c|] eqn:Hc.
  - pose proof (lookup_lt_Some _ _ _ Hc) as Hlt.
    destruct (startswith (drop k s) p) eqn:Hm.
    + rewrite (delete_from_skip p s k (length p)) by done.
      destruct (proj1 (startswith_spec _ _) Hm) as [t Ht].
      rewrite Ht, replace_hit by done. simpl.
      assert (t = drop (k + length p) s) as ->.
      { rewrite <- drop_drop, Ht. by rewrite drop_app_length. }
      assert (0 < length p) by (destruct p; [done | simpl; lia]).
      apply (IH (length s - (k + length p))); [lia | done |].
      intros j Hj Hjm. destruct (decide (j < k)) as [Hjk|Hjk].
      * specialize (Hinv j Hjk Hjm). lia.
      * assert (j = k + (j - k)) as Hjd by lia.
        rewrite Hjd in Hjm.
        rewrite (Hno s k (j - k) Hm Hjm) in Hjd by lia. lia.
    + rewrite (drop_S s c k Hc) in Hm |- *.
      rewrite replace_miss by done.
      rewrite (delete_from_step p s k c Hc).
      assert (covered p s k = false) as ->.
      { apply not_true_is_false. intros (j & Hle & Hjl & Hjm)%covered_spec.
        destruct (decide (j = k)) as [->|Hjk].
        - rewrite (drop_S s c k Hc) in Hjm. congruence.
        - assert (j < k) as Hjk' by lia.
          specialize (Hinv j Hjk' Hjm). lia. }
      simpl. f_equal.
      apply (IH (length s - S k)); [lia | done |].
      intros j Hj Hjm. destruct (decide (j = k)) as [->|Hjk].
      * rewrite (drop_S s c k Hc) in Hjm. congruence.
      * assert (j < k) as Hjk' by lia.
        specialize (Hinv j Hjk' Hjm). lia.
  - apply lookup_ge_None in Hc.
    rewrite delete_from_end, drop_ge by done. by apply replace_nil.
Qed.

(** For a pattern without overlap, the scan of [replace] deletes exactly
    the characters that lie in some occurrence. *)
Lemma replace_delete_occurrences p s :
  p ≠ [] → no_overlap p → replace s p [] = delete_occurrences p s.
Proof.
  intros Hp Hno. rewrite <- delete_from_0.
  rewrite <- (replace_delete_from p s 0 Hp Hno); [done |]. lia.
Qed.
End PyStrFacts.

(** ** Patterns that are one line and its newline

    Each pattern of the script is a text without newline followed by one
    newline.  [nl] is the newline, [l] the text of the line. *)

Section LinePattern.
Context {A : Type} `{EqDecision A}.
Variable nl : A.
Implicit Types s p t x y l r : list A.
Implicit Types ls : list (list A).

(** Inside a line, a line pattern can only start where the rest of the
    line is the pattern's text. *)
Lemma startswith_line x l t :
  nl ∉ x → nl ∉ l →
  startswith (x ++ nl :: t) (l ++ [nl]) = bool_decide (x = l).
Proof.
  revert x; induction l as [|a l IH]; intros [|b x] Hx Hl; simpl.
  - by rewrite decide_True.
  - rewrite decide_False; [done |]. intros ->. apply Hx; left.
  - rewrite decide_False; [done |]. intros ->. apply Hl; left.
  - apply not_elem_of_cons in Hx as [Hb Hx].
    apply not_elem_of_cons in Hl as [Ha Hl].
    case_decide as Hab.
    + subst b. rewrite IH by done.
      apply bool_decide_ext. split; congruence.
    + symmetry. apply bool_decide_eq_false. congruence.
Qed.

Lemma startswith_line_nil l t :
  nl ∉ l → startswith (nl :: t) (l ++ [nl]) = bool_decide ([] = l).
Proof. intros Hl. apply (startswith_line [] l t); [apply not_elem_of_nil | done]. Qed.

Lemma startswith_line_cons c x l t :
  nl ∉ c :: x → nl ∉ l →
  startswith (c :: x ++ nl :: t) (l ++ [nl]) = bool_decide (c :: x = l).
Proof. apply (startswith_line (c :: x) l t). Qed.

Lemma line_pattern_ne l : l ++ [nl] ≠ [].
Proof. by destruct l. Qed.

Lemma contains_line_free l r : nl ∉ r → contains (l ++ [nl]) r = false.
Proof.
  intros Hr. destruct (contains (l ++ [nl]) r) eqn:Hc; [|done].
  apply contains_spec in Hc as (u & t & ->). destruct Hr.
  rewrite !elem_of_app. right; left; right. left.
Qed.

(** A line ending in the pattern's text loses that text and its newline. *)
Lemma replace_line_hit y l t new :
  nl ∉ y → nl ∉ l →
  replace (y ++ l ++ nl :: t) (l ++ [nl]) new
  = y ++ new ++ replace t (l ++ [nl]) new.
Proof.
  intros Hy Hl. induction y as [|c y IH]; simpl.
  - rewrite (cons_middle nl l t), (assoc_L (++)).
    apply replace_hit, line_pattern_ne.
  - apply not_elem_of_cons in Hy as [Hc Hy].
    rewrite replace_miss, IH; [done..|].
    change (c :: y ++ l ++ nl :: t) with ((c :: y) ++ l ++ nl :: t).
    rewrite (assoc_L (++)), startswith_line; [| |done].
    + apply bool_decide_eq_false. intros Heq%(f_equal length).
      rewrite length_app in Heq. simpl in Heq. lia.
    + intros [[?|?]%elem_of_cons|?]%elem_of_app; done.
Qed.

(** A line not ending in the pattern's text is copied. *)
Lemma replace_line_miss x l t new :
  nl ∉ x → nl ∉ l → ¬ l `suffix_of` x →
  replace (x ++ nl :: t) (l ++ [nl]) new
  = x ++ nl :: replace t (l ++ [nl]) new.
Proof.
  intros Hx Hl. induction x as [|c x IH]; intros Hs; simpl.
  - apply replace_miss.
    rewrite startswith_line_nil by done.
    apply bool_decide_eq_false. intros <-. by apply Hs.
  - apply not_elem_of_cons in Hx as [Hc Hx].
    rewrite replace_miss, IH; [done | done | |].
    + intros Hs'. by apply Hs, suffix_cons_r.
    + rewrite startswith_line_cons; [| |done].
      * apply bool_decide_eq_false. intros <-. by apply Hs.
      * intros [?|?]%elem_of_cons; done.
Qed.

(** Occurrences of a line pattern are counted line by line. *)
Lemma occurrences_line x l t :
  nl ∉ x → nl ∉ l →
  occurrences (l ++ [nl]) (x ++ nl :: t)
  = (if bool_decide (l `suffix_of` x) then 1 else 0)
    + occurrences (l ++ [nl]) t.
Proof.
  intros Hx Hl. induction x as [|c x IH]; simpl.
  - rewrite startswith_line_nil by done.
    f_equal. apply (f_equal (λ b : bool, if b then 1 else 0)).
    apply bool_decide_ext. split; [intros <-; apply suffix_nil | by intros ->%suffix_nil_inv].
  - assert (nl ∉ c :: x) as Hcx by done.
    apply not_elem_of_cons in Hx as [Hc Hx].
    rewrite IH by done.
    rewrite startswith_line_cons by done.
    destruct (decide (c :: x = l)) as [<-|Hne].
    + rewrite bool_decide_eq_true_2 by done.
      rewrite (bool_decide_eq_true_2 (c :: x `suffix_of` c :: x)) by reflexivity.
      rewrite bool_decide_eq_false_2; [done |].
      intros Hs%suffix_length. simpl in Hs. lia.
    + rewrite bool_decide_eq_false_2 by done. simpl. f_equal.
      apply (f_equal (λ b : bool, if b then 1 else 0)).
      apply bool_decide_ext. split; [by apply suffix_cons_r |].
      intros [[|c' k] Hk]; simplify_eq/=. by exists k.
Qed.
(** [lines] and [unlines] are inverse to each other. *)
Lemma unlines_lines s : unlines nl (lines nl s).1 (lines nl s).2 = s.
Proof.
  induction s as [|c s IH]; [done |]. simpl.
  destruct (lines nl s) as [ls r]. simpl in IH.
  case_decide as Hc; [by subst |].
  destruct ls as [|x ls]; simpl in *; by subst.
Qed.

Lemma lines_free s :
  Forall (λ x, nl ∉ x) (lines nl s).1 ∧ nl ∉ (lines nl s).2.
Proof.
  induction s as [|c s [IH1 IH2]]; simpl.
  - split; [done | apply not_elem_of_nil].
  - destruct (lines nl s) as [ls r]. simpl in *.
    case_decide as Hc.
    + split; [|done]. constructor; [apply not_elem_of_nil | done].
    + destruct ls as [|x ls]; simpl.
      * split; [done |]. by intros [?|?]%elem_of_cons.
      * apply Forall_cons in IH1 as [Hx Hls]. split; [|done].
        constructor; [|done]. by intros [?|?]%elem_of_cons.
Qed.

Lemma lines_unlines ls r :
  Forall (λ x, nl ∉ x) ls → nl ∉ r →
  lines nl (unlines nl ls r) = (ls, r).
Proof.
  intros Hls Hr. induction Hls as [|x ls Hx Hls IH]; simpl.
  - clear -Hr. induction r as [|c r IH]; [done |]. simpl.
    apply not_elem_of_cons in Hr as [Hc Hr].
    rewrite IH by done. by rewrite decide_False.
  - induction x as [|c x IHx]; simpl.
    + by rewrite IH, decide_True.
    + apply not_elem_of_cons in Hx as [Hc Hx].
      rewrite IHx by done. by rewrite decide_False.
Qed.

(** A text without newline holds no line pattern. *)
Lemma replace_line_free l r new :
  nl ∉ r → replace r (l ++ [nl]) new = r.
Proof.
  intros Hr. apply replace_absent; [apply line_pattern_ne |].
  by apply contains_line_free.
Qed.

(** When every terminated line that ends in the pattern's text is that
    text, removing the pattern drops exactly those lines. *)
Lemma replace_unlines l ls r :
  nl ∉ l → nl ∉ r →
  Forall (λ x, (nl ∉ x) ∧ (l `suffix_of` x → x = l)) ls →
  replace (unlines nl ls r) (l ++ [nl]) []
  = unlines nl (filter (λ x, x ≠ l) ls) r.
Proof.
  intros Hl Hr Hls. induction Hls as [|x ls [Hx Hw] Hls IH]; simpl.
  - by apply replace_line_free.
  - destruct (decide (x = l)) as [->|Hne].
    + rewrite filter_cons_False by (by intros ?).
      rewrite <- IH. apply (replace_line_hit [] l); [apply not_elem_of_nil | done].
    + rewrite filter_cons_True by done. simpl. rewrite <- IH.
      apply replace_line_miss; [done | done |]. by intros ?%Hw.
Qed.

(** The pattern occurs once for each terminated line ending in its text. *)
Lemma occurrences_unlines l ls r :
  nl ∉ l → nl ∉ r → Forall (λ x, nl ∉ x) ls →
  occurrences (l ++ [nl]) (unlines nl ls r)
  = length (filter (λ x, l `suffix_of` x) ls).
Proof.
  intros Hl Hr Hls. induction Hls as [|x ls Hx Hls IH]; simpl.
  - apply contains_occurrences. by apply contains_line_free.
  - rewrite occurrences_line, IH by done.
    case_bool_decide.
    + by rewrite filter_cons_True.
    + by rewrite filter_cons_False.
Qed.
(** *** Overlap *)

(** Two occurrences of a line pattern never share a character. *)
Lemma no_overlap_line l : nl ∉ l → no_overlap (l ++ [nl]).
Proof.
  intros Hl s j d [t Ht]%startswith_spec Hm2 Hd.
  rewrite length_app in Hd. simpl in Hd.
  rewrite <- drop_drop, Ht, <- (assoc_L (++)), drop_app_le in Hm2 by lia.
  simpl in Hm2. rewrite startswith_line in Hm2; [| |done].
  - apply bool_decide_eq_true in Hm2. apply (f_equal length) in Hm2.
    rewrite length_drop in Hm2. lia.
  - intros Hin. by apply Hl, (subseteq_drop d l).
Qed.

(** Removal as the scan does it and removal of every occurrence agree on
    line patterns. *)
Lemma replace_line_delete_occurrences l s :
  nl ∉ l → replace s (l ++ [nl]) [] = delete_occurrences (l ++ [nl]) s.
Proof.
  intros Hl. apply replace_delete_occurrences;
    [apply line_pattern_ne | by apply no_overlap_line].
Qed.

(** *** Two different line patterns

    [l] is the text of the pattern being removed and [m] the text of
    another one; neither ends in the other. *)

Lemma replace_other_prefix l m t :
  nl ∉ l → nl ∉ m → ¬ l `suffix_of` m →
  replace ((m ++ [nl]) ++ t) (l ++ [nl]) []
  = (m ++ [nl]) ++ replace t (l ++ [nl]) [].
Proof.
  intros Hl Hm Hs. rewrite <- !(assoc_L (++)). simpl.
  by apply replace_line_miss.
Qed.

(** An occurrence of the other pattern at the head survives. *)
Lemma startswith_replace_other l m s :
  nl ∉ l → nl ∉ m → ¬ l `suffix_of` m →
  startswith s (m ++ [nl]) = true →
  startswith (replace s (l ++ [nl]) []) (m ++ [nl]) = true.
Proof.
  intros Hl Hm Hs [t ->]%startswith_spec.
  rewrite replace_other_prefix by done. apply startswith_app.
Qed.

(** No occurrence of the other pattern starts inside a removed one. *)
Lemma occurrences_skip_other l m t :
  nl ∉ l → nl ∉ m → ¬ m `suffix_of` l →
  occurrences (m ++ [nl]) ((l ++ [nl]) ++ t) = occurrences (m ++ [nl]) t.
Proof.
  intros Hl Hm Hs. rewrite <- (assoc_L (++)). simpl.
  rewrite occurrences_line by done. by rewrite bool_decide_eq_false_2.
Qed.

(** Removing one pattern never loses an occurrence of the other. *)
Lemma occurrences_replace_other_le l m s :
  nl ∉ l → nl ∉ m → ¬ l `suffix_of` m → ¬ m `suffix_of` l →
  occurrences (m ++ [nl]) s
  ≤ occurrences (m ++ [nl]) (replace s (l ++ [nl]) []).
Proof.
  intros Hl Hm Hlm Hml.
  cut (replace s (l ++ [nl]) [] = replace s (l ++ [nl]) [] ∧
       occurrences (m ++ [nl]) s
       ≤ occurrences (m ++ [nl]) (replace s (l ++ [nl]) [])); [by intros [_ ?] |].
  revert s.
  apply (replace_ind (l ++ [nl]) []
           (λ s r, r = replace s (l ++ [nl]) [] ∧
                   occurrences (m ++ [nl]) s ≤ occurrences (m ++ [nl]) r)).
  - apply line_pattern_ne.
  - split; [|done]. symmetry. apply replace_nil, line_pattern_ne.
  - intros t r [-> Hle]. split.
    + symmetry. apply replace_hit, line_pattern_ne.
    + by rewrite occurrences_skip_other.
  - intros c s r Hmiss [-> Hle]. split.
    + symmetry. by apply replace_miss.
    + cbn [occurrences].
      destruct (startswith (c :: s) (m ++ [nl])) eqn:Hq; [|lia].
      apply (startswith_replace_other l m) in Hq; [|done..].
      rewrite replace_miss in Hq by done. rewrite Hq. lia.
Qed.

(** When the removed occurrences are whole lines, the other pattern has
    exactly the occurrences it had. *)
Lemma occurrences_replace_other_eq l m ls r :
  nl ∉ l → nl ∉ m → nl ∉ r → ¬ m `suffix_of` l →
  Forall (λ x, (nl ∉ x) ∧ (l `suffix_of` x → x = l)) ls →
  occurrences (m ++ [nl]) (replace (unlines nl ls r) (l ++ [nl]) [])
  = occurrences (m ++ [nl]) (unlines nl ls r).
Proof.
  intros Hl Hm Hr Hml Hls.
  assert (Forall (λ x, nl ∉ x) ls) as Hfree.
  { eapply Forall_impl; [done |]. by intros x [??]. }
  rewrite replace_unlines by done.
  rewrite (occurrences_unlines m ls r) by done.
  rewrite occurrences_unlines; [|done | done |].
  - f_equal. clear -Hml. induction ls as [|x ls IH]; [done |].
    destruct (decide (x = l)) as [->|Hne].
    + rewrite filter_cons_False by (by intros ?).
      by rewrite (filter_cons_False _ l).
    + rewrite filter_cons_True by done.
      destruct (decide (m `suffix_of` x)).
      * rewrite !filter_cons_True by done. by rewrite IH.
      * by rewrite !filter_cons_False.
  - apply Forall_forall. intros x [_ Hx]%list_elem_of_filter.
    by apply (proj1 (Forall_forall _ _) Hfree).
Qed.
End LinePattern.

(** ** [str.replace] on small inputs *)

Example replace_each_occurrence :
  replace (lit "a.b.c") (lit ".") (lit "::") = lit "a::b::c".
Proof. reflexivity. Qed.

Example replace_empty_old :
  replace (lit "abc") [] (lit "-") = lit "-a-b-c-".
Proof. reflexivity. Qed.

(** The scan takes occurrences from the left and never looks back, so on a
    pattern that overlaps itself it keeps what deleting every occurrence
    would not. *)
Example replace_overlapping :
  replace (lit "aaa") (lit "aa") [] = lit "a"
  ∧ delete_occurrences (lit "aa") (lit "aaa") = [].
Proof. split; reflexivity. Qed.

Example lines_of_text :
  lines LF (text_of ["a"; ""; "b"] "c") = ([lit "a"; []; lit "b"], lit "c").
Proof. reflexivity. Qed.

Example universal_newlines_of_text :
  universal_newlines (lit "a" ++ [CR; LF] ++ lit "b" ++ [CR] ++ lit "c" ++ [LF])
  = lit "a" ++ [LF] ++ lit "b" ++ [LF] ++ lit "c" ++ [LF].
Proof. reflexivity. Qed.

(** ** The three patterns *)

(** Refute a decidable proposition about literals by evaluation. *)
Ltac refute_by_eval :=
  match goal with
  | |- ¬ ?P => apply (bool_decide_eq_false_1 P); vm_compute; reflexivity
  | |- ?P → False => apply (bool_decide_eq_false_1 P); vm_compute; reflexivity
  end.

Lemma pattern_lines_free l : l ∈ pattern_lines → LF ∉ l.
Proof.
  unfold pattern_lines. rewrite !elem_of_cons, elem_of_nil.
  intros [->|[->|[->|[]]]]; refute_by_eval.
Qed.

(** No pattern's text ends in the text of another. *)
Lemma pattern_lines_apart l m :
  l ∈ pattern_lines → m ∈ pattern_lines → l `suffix_of` m → l = m.
Proof.
  unfold pattern_lines. rewrite !elem_of_cons, !elem_of_nil.
  intros [->|[->|[->|[]]]] [->|[->|[->|[]]]] Hs; try done;
    exfalso; revert Hs; refute_by_eval.
Qed.

Lemma patterns_lines p :
  p ∈ patterns ↔ ∃ l, l ∈ pattern_lines ∧ p = l ++ [LF].
Proof.
  unfold patterns, pattern_lines, import_pattern, const_pattern, call_pattern.
  rewrite !elem_of_cons, elem_of_nil. split.
  - intros [->|[->|[->|[]]]]; eexists; (split; [|done]);
      rewrite !elem_of_cons; auto.
  - intros (l & Hl & ->). revert Hl. rewrite !elem_of_cons, elem_of_nil.
    intros [->|[->|[->|[]]]]; auto.
Qed.

Lemma patterns_ne p : p ∈ patterns → p ≠ [].
Proof. intros (l & _ & ->)%patterns_lines. apply line_pattern_ne. Qed.

Lemma import_line_in : import_line ∈ pattern_lines.
Proof. apply list_elem_of_here. Qed.
Lemma const_line_in : const_line ∈ pattern_lines.
Proof. apply list_elem_of_further, list_elem_of_here. Qed.
Lemma call_line_in : call_line ∈ pattern_lines.
Proof. do 2 apply list_elem_of_further. apply list_elem_of_here. Qed.

Lemma import_pattern_in : import_pattern ∈ patterns.
Proof. apply list_elem_of_here. Qed.
Lemma const_pattern_in : const_pattern ∈ patterns.
Proof. apply list_elem_of_further, list_elem_of_here. Qed.
Lemma call_pattern_in : call_pattern ∈ patterns.
Proof. do 2 apply list_elem_of_further. apply list_elem_of_here. Qed.

Lemma import_line_free : LF ∉ import_line.
Proof. apply pattern_lines_free, import_line_in. Qed.
Lemma const_line_free : LF ∉ const_line.
Proof. apply pattern_lines_free, const_line_in. Qed.
Lemma call_line_free : LF ∉ call_line.
Proof. apply pattern_lines_free, call_line_in. Qed.

(** ** The transform *)

Lemma patch_absent text :
  (∀ p, p ∈ patterns → contains p text = false) → patch text = text.
Proof.
  intros Hc. unfold patch.
  assert (∀ p, p ∈ patterns → replace text p [] = text) as Hr.
  { intros p Hp. apply replace_absent; [by apply patterns_ne | by apply Hc]. }
  rewrite (Hr import_pattern import_pattern_in).
  rewrite (Hr const_pattern const_pattern_in).
  apply (Hr call_pattern call_pattern_in).
Qed.

Lemma patch_sublist text : patch text `sublist_of` text.
Proof.
  unfold patch.
  etrans; [apply replace_sublist, line_pattern_ne |].
  etrans; [apply replace_sublist, line_pattern_ne |].
  apply replace_sublist, line_pattern_ne.
Qed.

(** The texts the transform leaves alone are those without any pattern. *)
Lemma patch_fixed_iff text :
  patch text = text ↔ ∀ p, p ∈ patterns → contains p text = false.
Proof.
  split; [|apply patch_absent].
  unfold patch. intros Heq.
  pose proof (replace_length text import_pattern (line_pattern_ne LF _)) as H1.
  pose proof (replace_length (replace text import_pattern []) const_pattern
                (line_pattern_ne LF _)) as H2.
  pose proof (replace_length
                (replace (replace text import_pattern []) const_pattern [])
                call_pattern (line_pattern_ne LF _)) as H3.
  rewrite Heq in H3.
  assert (contains import_pattern text = false) as C1.
  { apply not_true_is_false. intros Hc.
    apply replace_present_shorter in Hc; [|apply line_pattern_ne]. lia. }
  rewrite (replace_absent text import_pattern) in Heq, H2, H3
    by (apply line_pattern_ne || done).
  assert (contains const_pattern text = false) as C2.
  { apply not_true_is_false. intros Hc.
    apply replace_present_shorter in Hc; [|apply line_pattern_ne]. lia. }
  rewrite (replace_absent text const_pattern) in Heq
    by (apply line_pattern_ne || done).
  assert (contains call_pattern text = false) as C3.
  { by apply replace_fixed_iff; [apply line_pattern_ne |]. }
  intros p. unfold patterns. rewrite !elem_of_cons, elem_of_nil.
  by intros [->|[->|[->|[]]]].
Qed.

(** *** Texts in which the patterns are whole lines *)

Lemma Forall_filter_keep {A} (P Q : A → Prop) `{!∀ x, Decision (Q x)} ls :
  Forall P ls → Forall P (filter Q ls).
Proof.
  rewrite !Forall_forall. intros HP x [_ Hx]%list_elem_of_filter. by apply HP.
Qed.

Lemma whole_line_spec l text :
  whole_line l text = true ↔
  Forall (λ x, l `suffix_of` x → x = l) (lines LF text).1.
Proof.
  unfold whole_line. induction (lines LF text).1 as [|x ls IH]; simpl.
  - split; [by constructor | done].
  - rewrite andb_true_iff, IH, Forall_cons.
    apply and_iff_compat_r.
    destruct (endswith x l) eqn:He; simpl.
    + apply endswith_spec in He. rewrite bool_decide_eq_true.
      split; [done | by intros Hx; apply Hx].
    + split; [|done]. intros _ Hs%endswith_spec. congruence.
Qed.

Lemma whole_lines_spec text :
  whole_lines text = true ↔
  ∀ l, l ∈ pattern_lines → whole_line l text = true.
Proof.
  unfold whole_lines, pattern_lines. simpl.
  rewrite !andb_true_iff. split.
  - intros (H1 & H2 & H3 & _) l. rewrite !elem_of_cons, elem_of_nil.
    by intros [->|[->|[->|[]]]].
  - intros Hw. split_and!;
      [apply Hw, import_line_in | apply Hw, const_line_in
      | apply Hw, call_line_in | done].
Qed.

(** Dropping the three texts one after the other leaves the other lines. *)
Lemma other_lines_filter ls :
  filter (λ x, x ≠ call_line)
    (filter (λ x, x ≠ const_line) (filter (λ x, x ≠ import_line) ls))
  = other_lines ls.
Proof.
  unfold other_lines, pattern_lines.
  induction ls as [|x ls IH]; [done |].
  destruct (decide (x = import_line)) as [->|H1].
  { rewrite (filter_cons_False (λ x, x ≠ import_line)) by (by intros ?).
    rewrite (filter_cons_False (λ x, x ∉ _)); [done |].
    intros Hn. apply Hn, import_line_in. }
  rewrite (filter_cons_True (λ x, x ≠ import_line)) by done.
  destruct (decide (x = const_line)) as [->|H2].
  { rewrite (filter_cons_False (λ x, x ≠ const_line)) by (by intros ?).
    rewrite (filter_cons_False (λ x, x ∉ _)); [done |].
    intros Hn. apply Hn, const_line_in. }
  rewrite (filter_cons_True (λ x, x ≠ const_line)) by done.
  destruct (decide (x = call_line)) as [->|H3].
  { rewrite (filter_cons_False (λ x, x ≠ call_line)) by (by intros ?).
    rewrite (filter_cons_False (λ x, x ∉ _)); [done |].
    intros Hn. apply Hn, call_line_in. }
  rewrite (filter_cons_True (λ x, x ≠ call_line)) by done.
  rewrite (filter_cons_True (λ x, x ∉ _)); [by rewrite IH |].
  rewrite !elem_of_cons, elem_of_nil. by intros [?|[?|[?|[]]]].
Qed.

(** On such a text the transform drops exactly the lines that are the text
    of a pattern. *)
Lemma patch_unlines ls r :
  LF ∉ r →
  Forall (λ x, (LF ∉ x) ∧ ∀ l, l ∈ pattern_lines → l `suffix_of` x → x = l) ls →
  patch (unlines LF ls r) = unlines LF (other_lines ls) r.
Proof.
  intros Hr Hls. unfold patch.
  assert (∀ l, l ∈ pattern_lines →
            Forall (λ x, (LF ∉ x) ∧ (l `suffix_of` x → x = l)) ls) as Hl.
  { intros l Hin. eapply Forall_impl; [done |]. intros x [? Hx]. split; [done |].
    by apply Hx. }
  rewrite (replace_unlines LF import_line);
    [|apply import_line_free | done | apply Hl, import_line_in].
  rewrite (replace_unlines LF const_line);
    [|apply const_line_free | done
     |apply Forall_filter_keep, Hl, const_line_in].
  rewrite (replace_unlines LF call_line);
    [|apply call_line_free | done
     |do 2 apply Forall_filter_keep; apply Hl, call_line_in].
  by rewrite other_lines_filter.
Qed.

Lemma whole_lines_Forall text :
  whole_lines text = true →
  Forall (λ x, (LF ∉ x) ∧ ∀ l, l ∈ pattern_lines → l `suffix_of` x → x = l)
         (lines LF text).1.
Proof.
  intros Hw. apply Forall_forall. intros x Hx. split.
  - by apply (proj1 (Forall_forall _ _) (proj1 (lines_free LF text))).
  - intros l Hl. rewrite whole_lines_spec in Hw.
    specialize (Hw l Hl). rewrite whole_line_spec in Hw.
    by apply (proj1 (Forall_forall _ _) Hw).
Qed.

Lemma patch_whole_lines text :
  whole_lines text = true →
  patch text = unlines LF (other_lines (lines LF text).1) (lines LF text).2.
Proof.
  intros Hw. rewrite <- (unlines_lines LF text) at 1.
  apply patch_unlines; [apply lines_free | by apply whole_lines_Forall].
Qed.

(** No pattern is left among the other lines. *)
Lemma contains_other_lines ls r p :
  LF ∉ r →
  Forall (λ x, (LF ∉ x) ∧ ∀ l, l ∈ pattern_lines → l `suffix_of` x → x = l) ls →
  p ∈ patterns →
  contains p (unlines LF (other_lines ls) r) = false.
Proof.
  intros Hr Hls (l & Hl & ->)%patterns_lines.
  apply contains_occurrences.
  rewrite occurrences_unlines; [|by apply pattern_lines_free | done |].
  - assert (∀ xs : list str, Forall (λ x, ¬ l `suffix_of` x) xs →
              length (filter (λ x, l `suffix_of` x) xs) = 0) as Hnil.
    { induction 1 as [|x xs Hx _ IH]; [done |]. by rewrite filter_cons_False. }
    apply Hnil, Forall_forall. unfold other_lines.
    intros x [Hx Hin]%list_elem_of_filter Hs. apply Hx.
    destruct (proj1 (Forall_forall _ _) Hls x Hin) as [_ Hw].
    by rewrite (Hw l Hl Hs).
  - apply Forall_filter_keep. eapply Forall_impl; [done |]. by intros x [??].
Qed.

Lemma contains_patch_whole_lines text p :
  whole_lines text = true → p ∈ patterns → contains p (patch text) = false.
Proof.
  intros Hw Hp. rewrite patch_whole_lines by done.
  apply contains_other_lines; [apply lines_free | by apply whole_lines_Forall | done].
Qed.

(** Each terminated line is counted once: as another line, or as the one
    text of a pattern it ends in. *)
Lemma lines_count ls :
  Forall (λ x, ∀ l, l ∈ pattern_lines → l `suffix_of` x → x = l) ls →
  length ls
  = length (other_lines ls)
    + length (filter (λ x, import_line `suffix_of` x) ls)
    + length (filter (λ x, const_line `suffix_of` x) ls)
    + length (filter (λ x, call_line `suffix_of` x) ls).
Proof.
  pose proof import_line_in as I1.
  pose proof const_line_in as I2.
  pose proof call_line_in as I3.
  unfold other_lines.
  induction 1 as [|x ls Hx _ IH]; [done |].
  rewrite !filter_cons. simpl. rewrite IH.
  destruct (decide (x ∈ pattern_lines)) as [Hin|Hout].
  - rewrite (decide_False (P := x ∉ pattern_lines)) by (by intros ?).
    assert (∀ l, l ∈ pattern_lines → l `suffix_of` x ↔ l = x) as Hiff.
    { intros l Hl. split; [by apply pattern_lines_apart | by intros ->]. }
    revert Hin. unfold pattern_lines at 1. rewrite !elem_of_cons, elem_of_nil.
    intros [->|[->|[->|[]]]].
    + rewrite (decide_True (P := import_line `suffix_of` import_line)) by done.
      rewrite (decide_False (P := const_line `suffix_of` import_line))
        by (rewrite Hiff by done; refute_by_eval).
      rewrite (decide_False (P := call_line `suffix_of` import_line))
        by (rewrite Hiff by done; refute_by_eval).
      simpl. lia.
    + rewrite (decide_False (P := import_line `suffix_of` const_line))
        by (rewrite Hiff by done; refute_by_eval).
      rewrite (decide_True (P := const_line `suffix_of` const_line)) by done.
      rewrite (decide_False (P := call_line `suffix_of` const_line))
        by (rewrite Hiff by done; refute_by_eval).
      simpl. lia.
    + rewrite (decide_False (P := import_line `suffix_of` call_line))
        by (rewrite Hiff by done; refute_by_eval).
      rewrite (decide_False (P := const_line `suffix_of` call_line))
        by (rewrite Hiff by done; refute_by_eval).
      rewrite (decide_True (P := call_line `suffix_of` call_line)) by done.
      simpl. lia.
  - rewrite (decide_True (P := x ∉ pattern_lines)) by done.
    rewrite !decide_False; [simpl; lia | | |];
      intros Hs; apply Hout;
      match type of Hs with
      | ?l `suffix_of` _ =>
          assert (l ∈ pattern_lines) as Hl by done; by rewrite (Hx l Hl Hs)
      end.
Qed.

(** ** Runs *)

(** Close a goal from a membership [H] in a trace that cannot hold. *)
Ltac absent_from_trace H :=
  repeat (apply elem_of_cons in H; destruct H as [H|H]; [discriminate H |]);
  by apply elem_of_nil in H.

(** What a run does, by what is at the path. *)
Lemma run_spec π :
  run π =
  match disk π !! path with
  | None => (Raise FileNotFoundError, State (disk π) [] [])
  | Some Directory => (Raise IsADirectoryError, State (disk π) [] [])
  | Some (File false _ _) => (Raise PermissionError, State (disk π) [] [])
  | Some (File true false _) =>
      (Raise PermissionError, State (disk π) [] [ReadText path])
  | Some (File true true content) =>
      (Ok (),
       State (<[path := File true true (patch content)]> (disk π))
             (lit "updated index.ts" ++ [LF])
             [ReadText path; WriteText path (patch content);
              Print (lit "updated index.ts")])
  end.
Proof.
  unfold run, main, mbind, M_bind, read_text. simpl.
  destruct (disk π !! path) as [[[] w c|]|] eqn:E; [|done..].
  unfold write_text. simpl. rewrite E. by destruct w.
Qed.

(** A run on a readable and writable file. *)
Lemma run_ok π content :
  disk π !! path = Some (File true true content) →
  (run π).1 = Ok ()
  ∧ files (run π).2 !! path = Some (File true true (patch content))
  ∧ stdout (run π).2 = lit "updated index.ts" ++ [LF].
Proof.
  intros E. rewrite run_spec, E. cbn [fst snd files stdout].
  by rewrite lookup_insert_eq.
Qed.

(** ** The stated properties *)

(** C1: the transform is three removals of literal text, in the order
    import line, const line, call line, each pattern being the text of the
    line and one newline; each removal deletes every occurrence of its
    pattern and nothing else; a removal whose pattern does not occur gives
    its input back; and a run on a readable and writable file does not
    raise, whatever the file holds. *)
Theorem patch_three_removals (text : str) :
  patterns
  = [lit "import { startSepoliaWatcher } from './sepoliaWatcher.js'" ++ [LF];
     lit "  const stopSepoliaWatcher = startSepoliaWatcher(ctx, store)" ++ [LF];
     lit "    stopSepoliaWatcher()" ++ [LF]]
  ∧ patch text
    = replace (replace (replace text import_pattern []) const_pattern [])
              call_pattern []
  ∧ (∀ p s, p ∈ patterns → replace s p [] = delete_occurrences p s)
  ∧ (∀ p s, p ∈ patterns → contains p s = false → replace s p [] = s)
  ∧ (∀ π, disk π !! path = Some (File true true text) → (run π).1 = Ok ()).
Proof.
  split_and!; [done | done | | |].
  - intros p s (l & Hl & ->)%patterns_lines.
    by apply replace_line_delete_occurrences, pattern_lines_free.
  - intros p s Hp Hc. by apply replace_absent; [apply patterns_ne |].
  - intros π Hπ. by apply (run_ok π text).
Qed.

Lemma patch_three_removals_witness :
  replace scenario_no_match call_pattern []
  = delete_occurrences call_pattern scenario_no_match
  ∧ replace scenario_no_match call_pattern [] = scenario_no_match
  ∧ (run (process_with scenario_no_match)).1 = Ok ().
Proof.
  destruct (patch_three_removals scenario_no_match) as (_ & _ & Hd & Ha & Hr).
  split_and!.
  - apply Hd, call_pattern_in.
  - apply Ha; [apply call_pattern_in | reflexivity].
  - apply Hr. reflexivity.
Defined.

(** C2, as stated, fails: removing the call pattern from [split_call] puts
    the call pattern together, and a second pass removes it. *)
Lemma patch_not_idempotent :
  patch split_call = call_pattern
  ∧ patch (patch split_call) = []
  ∧ patch (patch split_call) ≠ patch split_call.
Proof. split_and!; [by vm_compute | by vm_compute | refute_by_eval]. Qed.

(** C2, amended: a second pass changes nothing exactly when the first pass
    left no occurrence of a pattern; this is so for every text in which
    the patterns occur as whole lines only. *)
Theorem patch_idempotent_iff (text : str) :
  (patch (patch text) = patch text ↔
   ∀ p, p ∈ patterns → contains p (patch text) = false)
  ∧ (whole_lines text = true → patch (patch text) = patch text).
Proof.
  split; [apply patch_fixed_iff |].
  intros Hw. apply patch_fixed_iff. intros p Hp.
  by apply contains_patch_whole_lines.
Qed.

Lemma patch_idempotent_iff_witness :
  patch (patch scenario_input_nested) = patch scenario_input_nested.
Proof.
  apply (proj2 (patch_idempotent_iff scenario_input_nested)). reflexivity.
Defined.

(** C3, as stated, fails: [once_each] holds each pattern once, and its
    output holds the call pattern. *)
Lemma patch_once_each_leaves_pattern :
  occurrences import_pattern once_each = 1
  ∧ occurrences const_pattern once_each = 1
  ∧ occurrences call_pattern once_each = 1
  ∧ contains call_pattern (patch once_each) = true.
Proof. split_and!; by vm_compute. Qed.

(** C3, amended: for a text that holds each pattern once, each as a whole
    line, the output holds no pattern, and its lines are the lines of the
    input without those three, in the same order and with the same
    content; the part after the last newline is kept. *)
Theorem patch_selective_removal (text : str) :
  whole_lines text = true →
  occurrences import_pattern text = 1 →
  occurrences const_pattern text = 1 →
  occurrences call_pattern text = 1 →
  (∀ p, p ∈ patterns → contains p (patch text) = false)
  ∧ lines LF (patch text)
    = (other_lines (lines LF text).1, (lines LF text).2)
  ∧ length (lines LF text).1 = length (other_lines (lines LF text).1) + 3.
Proof.
  intros Hw O1 O2 O3.
  pose proof (whole_lines_Forall text Hw) as Hls.
  destruct (lines_free LF text) as [Hfree Hr].
  split_and!.
  - intros p Hp. by apply contains_patch_whole_lines.
  - rewrite patch_whole_lines by done.
    apply lines_unlines; [|done]. by apply Forall_filter_keep.
  - rewrite <- (unlines_lines LF text) in O1, O2, O3.
    unfold import_pattern, const_pattern, call_pattern in O1, O2, O3.
    rewrite occurrences_unlines in O1, O2, O3
      by first [apply import_line_free | apply const_line_free
               | apply call_line_free | done].
    rewrite (lines_count (lines LF text).1), O1, O2, O3; [lia |].
    eapply Forall_impl; [exact Hls |]. by intros x [_ ?].
Qed.

Lemma patch_selective_removal_witness :
  lines LF (patch scenario_input_nested)
  = (other_lines (lines LF scenario_input_nested).1,
     (lines LF scenario_input_nested).2).
Proof.
  apply (patch_selective_removal scenario_input_nested); reflexivity.
Defined.

(** C4: a text without any of the three patterns comes out as it went in,
    and so does the file of a run on it, which still prints the
    confirmation. *)
Theorem patch_noop_on_absence (text : str) :
  contains import_pattern text = false →
  contains const_pattern text = false →
  contains call_pattern text = false →
  patch text = text
  ∧ ∀ π, disk π !! path = Some (File true true text) →
         files (run π).2 !! path = Some (File true true text)
         ∧ stdout (run π).2 = lit "updated index.ts" ++ [LF].
Proof.
  intros H1 H2 H3.
  assert (patch text = text) as Hp.
  { apply patch_absent. intros p. unfold patterns.
    rewrite !elem_of_cons, elem_of_nil. by intros [->|[->|[->|[]]]]. }
  split; [done |]. intros π Hπ.
  destruct (run_ok π text Hπ) as (_ & Hf & Ho). rewrite Hp in Hf. by split.
Qed.

Lemma patch_noop_on_absence_witness :
  patch scenario_no_match = scenario_no_match
  ∧ files (run (process_with scenario_no_match)).2 !! path
    = Some (File true true scenario_no_match)
  ∧ stdout (run (process_with scenario_no_match)).2
    = lit "updated index.ts" ++ [LF].
Proof.
  destruct (patch_noop_on_absence scenario_no_match) as [Hp Hr];
    [reflexivity..|].
  split; [exact Hp |]. apply Hr. reflexivity.
Defined.

(** C5, as stated, fails: [split_import] holds no import pattern, and
    holds one once the call pattern is removed from it. *)
Lemma removal_creates_occurrence :
  occurrences import_pattern split_import = 0
  ∧ occurrences import_pattern (replace split_import call_pattern []) = 1.
Proof. split; by vm_compute. Qed.

(** C5, amended: different patterns never overlap, so removing one pattern
    does not take away an occurrence of another: the other pattern occurs
    at least as often afterwards; and when the removed pattern occurs as
    whole lines only, the other pattern occurs exactly as often as
    before. *)
Theorem removal_keeps_other_occurrences (l m s : str) :
  l ∈ pattern_lines → m ∈ pattern_lines → l ≠ m →
  occurrences (m ++ [LF]) s
  ≤ occurrences (m ++ [LF]) (replace s (l ++ [LF]) [])
  ∧ (whole_line l s = true →
     occurrences (m ++ [LF]) (replace s (l ++ [LF]) [])
     = occurrences (m ++ [LF]) s).
Proof.
  intros Hl Hm Hne.
  assert (¬ l `suffix_of` m) as Hlm by (by intros ?%pattern_lines_apart).
  assert (¬ m `suffix_of` l) as Hml by (by intros ?%pattern_lines_apart).
  pose proof (pattern_lines_free l Hl) as Fl.
  pose proof (pattern_lines_free m Hm) as Fm.
  split; [by apply occurrences_replace_other_le |].
  intros Hw%whole_line_spec.
  destruct (lines_free LF s) as [Hfree Hr].
  rewrite <- (unlines_lines LF s).
  apply occurrences_replace_other_eq; [done..|].
  apply Forall_forall. intros x Hx. split.
  - by apply (proj1 (Forall_forall _ _) Hfree).
  - by apply (proj1 (Forall_forall _ _) Hw).
Qed.

Lemma removal_keeps_other_occurrences_witness :
  occurrences (import_line ++ [LF]) split_import
  ≤ occurrences (import_line ++ [LF])
      (replace split_import (call_line ++ [LF]) []).
Proof.
  apply (removal_keeps_other_occurrences call_line import_line split_import).
  - apply call_line_in.
  - apply import_line_in.
  - refute_by_eval.
Defined.

(** C9: the output is a subsequence of the input: characters are deleted,
    never added or moved; so the output is no longer than the input. *)
Theorem patch_subsequence (text : str) :
  patch text `sublist_of` text ∧ length (patch text) ≤ length text.
Proof.
  split; [apply patch_sublist | apply sublist_length, patch_sublist].
Qed.

(** C6, as stated, fails: on the input as shown the output is not the three
    lines, with or without a newline after the closing brace. *)
Lemma scenario_output_differs :
  patch scenario_input ≠ scenario_output
  ∧ patch scenario_input_open ≠ scenario_output_open.
Proof. split; refute_by_eval. Qed.

(** C6, amended: on the input as shown, where the call is indented by two
    spaces, the import line and the const line go and the call line stays,
    which gives four lines; the run writes them and prints the
    confirmation.  The three lines come out when the call is indented by
    four spaces. *)
Theorem scenario_patched :
  patch scenario_input = scenario_result
  ∧ patch scenario_input_nested = scenario_output
  ∧ ∀ π, disk π !! path = Some (File true true scenario_input) →
         files (run π).2 !! path = Some (File true true scenario_result)
         ∧ stdout (run π).2 = lit "updated index.ts" ++ [LF].
Proof.
  assert (patch scenario_input = scenario_result) as Hp
    by (vm_compute; reflexivity).
  split_and!; [exact Hp | vm_compute; reflexivity |].
  intros π Hπ. destruct (run_ok π scenario_input Hπ) as (_ & Hf & Ho).
  rewrite Hp in Hf. by split.
Qed.

Lemma scenario_patched_witness :
  files (run (process_with scenario_input)).2 !! path
  = Some (File true true scenario_result)
  ∧ stdout (run (process_with scenario_input)).2
    = lit "updated index.ts" ++ [LF].
Proof.
  apply (proj2 (proj2 scenario_patched) (process_with scenario_input)).
  reflexivity.
Defined.

(** C7: a run in which the write has returned prints one line, the
    confirmation, and prints it after the write, whatever the file held;
    a run in which the write has not returned prints nothing. *)
Theorem confirmation_after_write (π : process) :
  ((∃ data, WriteText path data ∈ trace (run π).2) →
   stdout (run π).2 = lit "updated index.ts" ++ [LF]
   ∧ ∃ data, trace (run π).2
             = [ReadText path; WriteText path data;
                Print (lit "updated index.ts")])
  ∧ ((∀ data, WriteText path data ∉ trace (run π).2) →
     stdout (run π).2 = [] ∧ ∀ line, Print line ∉ trace (run π).2).
Proof.
  rewrite run_spec.
  destruct (disk π !! path) as [[[] [] c|]|]; simpl; split.
  all: try (intros [data Hin]; absent_from_trace Hin).
  all: try (intros _; split; [done |]; intros line Hin;
            absent_from_trace Hin).
  - intros _. split; [done |]. by exists (patch c).
  - intros Hno. exfalso. apply (Hno (patch c)).
    apply list_elem_of_further, list_elem_of_here.
Qed.

Lemma confirmation_after_write_witness :
  stdout (run (process_with scenario_no_match)).2
  = lit "updated index.ts" ++ [LF].
Proof.
  apply (proj1 (confirmation_after_write (process_with scenario_no_match))).
  exists (patch scenario_no_match).
  apply list_elem_of_further, list_elem_of_here.
Defined.

(** C8: an error of the read or of the write is the error of the run,
    unchanged.  When the read raises, the files are as they were and
    nothing is printed; when the write raises, nothing is printed.  A
    missing path, a file without read permission and a file without write
    permission each raise.  The one write of a run carries the text after
    all three removals. *)
Theorem errors_propagate (π : process) :
  (∀ e σ, read_text path (State (disk π) [] []) = (Raise e, σ) →
          run π = (Raise e, State (disk π) [] []))
  ∧ (∀ text σ1 e σ2,
       read_text path (State (disk π) [] []) = (Ok text, σ1) →
       write_text path (patch text) σ1 = (Raise e, σ2) →
       run π = (Raise e, σ2) ∧ stdout σ2 = []
       ∧ ∀ line, Print line ∉ trace σ2)
  ∧ (disk π !! path = None →
     run π = (Raise FileNotFoundError, State (disk π) [] []))
  ∧ (∀ w content, disk π !! path = Some (File false w content) →
     run π = (Raise PermissionError, State (disk π) [] []))
  ∧ (∀ content, disk π !! path = Some (File true false content) →
     (run π).1 = Raise PermissionError
     ∧ files (run π).2 = disk π ∧ stdout (run π).2 = [])
  ∧ (∀ data, WriteText path data ∈ trace (run π).2 →
     ∃ text, disk π !! path = Some (File true true text)
             ∧ data = patch text).
Proof.
  split_and!.
  - intros e σ. rewrite run_spec. unfold read_text. simpl.
    destruct (disk π !! path) as [[[] w c|]|]; intros; by simplify_eq.
  - intros text σ1 e σ2. rewrite run_spec. unfold read_text, write_text. simpl.
    destruct (disk π !! path) as [[[] w c|]|] eqn:E; intros; simplify_eq/=.
    rewrite E in *. destruct w; simplify_eq/=.
    split_and!; [done..|]. intros line Hin. absent_from_trace Hin.
  - intros E. by rewrite run_spec, E.
  - intros w c E. by rewrite run_spec, E.
  - intros c E. by rewrite run_spec, E.
  - intros data. rewrite run_spec.
    destruct (disk π !! path) as [[[] [] c|]|]; cbn [snd trace]; intros Hin;
      [|absent_from_trace Hin..].
    apply elem_of_cons in Hin as [Hin|Hin]; [discriminate Hin |].
    apply elem_of_cons in Hin as [Hin|Hin]; [|absent_from_trace Hin].
    exists c. split; [done | congruence].
Qed.

Lemma errors_propagate_witness :
  run (Process [] ∅ ∅) = (Raise FileNotFoundError, State ∅ [] []).
Proof.
  apply (proj1 (proj2 (proj2 (errors_propagate (Process [] ∅ ∅))))).
  reflexivity.
Defined.









(** ** More about [str.replace] *)

Section ReplaceMore.
Context {A : Type} `{EqDecision A}.
Variable nl : A.
Implicit Types s p t w x l r new : list A.

(** Replacing a pattern by itself changes nothing, the empty pattern
    included. *)
Lemma replace_same s p : replace s p p = s.
Proof.
  destruct (decide (p = [])) as [->|Hp].
  - simpl. induction s as [|c s IH]; [done |]. simpl. by f_equal.
  - revert s. apply (replace_ind p p (λ s r, r = s)); [done | done | |].
    + by intros t r ->.
    + by intros c s r _ ->.
Qed.

(** A line pattern that starts in [s] and would end in a text without
    newline put after [s] ends in [s]. *)
Lemma startswith_app_free s r l :
  nl ∉ r →
  startswith (s ++ r) (l ++ [nl]) = true → startswith s (l ++ [nl]) = true.
Proof.
  intros Hr. revert s. induction l as [|a l IH]; intros [|c s]; simpl.
  - intros [t Ht]%(startswith_spec r [nl]). destruct Hr. rewrite Ht. left.
  - done.
  - intros [t Ht]%(startswith_spec r (a :: l ++ [nl])). destruct Hr.
    rewrite Ht. right. rewrite !elem_of_app, elem_of_cons. auto.
  - case_decide; [apply IH | done].
Qed.

(** Text without newline at the end is never part of a removal. *)
Lemma replace_app_free w r l new :
  nl ∉ r →
  replace (w ++ r) (l ++ [nl]) new = replace w (l ++ [nl]) new ++ r.
Proof.
  intros Hr. revert w.
  apply (replace_ind (l ++ [nl]) new
           (λ w res, replace (w ++ r) (l ++ [nl]) new = res ++ r)).
  - apply line_pattern_ne.
  - by apply replace_line_free.
  - intros t res IH. rewrite <- !(assoc_L (++) _ _ r), <- IH.
    apply replace_hit, line_pattern_ne.
  - intros c s res Hm IH. simpl. rewrite <- IH. apply replace_miss.
    apply not_true_is_false. intros Hm'.
    apply (startswith_app_free (c :: s) r l Hr) in Hm'. congruence.
Qed.

(** Every occurrence of a line pattern is traded for [new]: the lengths
    add up. *)
Lemma replace_length_law l s new :
  nl ∉ l →
  length (replace s (l ++ [nl]) new)
  + occurrences (l ++ [nl]) s * length (l ++ [nl])
  = length s + occurrences (l ++ [nl]) s * length new.
Proof.
  intros Hl. revert s.
  apply (replace_ind (l ++ [nl]) new
           (λ s res, length res + occurrences (l ++ [nl]) s * length (l ++ [nl])
                     = length s + occurrences (l ++ [nl]) s * length new)).
  - apply line_pattern_ne.
  - cbn [occurrences]. by rewrite startswith_nil_false by apply line_pattern_ne.
  - intros t res IH.
    assert (occurrences (l ++ [nl]) ((l ++ [nl]) ++ t)
            = S (occurrences (l ++ [nl]) t)) as ->.
    { rewrite <- (assoc_L (++)). simpl.
      rewrite occurrences_line by done.
      by rewrite bool_decide_eq_true_2 by reflexivity. }
    rewrite !length_app in *. simpl in *. lia.
  - intros c s res Hm IH. cbn [occurrences]. rewrite Hm. simpl in *. lia.
Qed.
End ReplaceMore.

(** ** More about the transform and the runs *)

(** One removal, line by line: a terminated line ending in the text of the
    pattern loses that text and its newline, so that what is left of it is
    joined to the next line; every other line and the text after the last
    newline are copied. *)
Theorem replace_line_by_line (l text : str) :
  l ∈ pattern_lines →
  replace text (l ++ [LF]) []
  = mjoin (remove_line l <$> (lines LF text).1) ++ (lines LF text).2.
Proof.
  intros Hl. pose proof (pattern_lines_free l Hl) as Fl.
  rewrite <- (unlines_lines LF text) at 1.
  destruct (lines_free LF text) as [Hfree Hr].
  revert Hfree Hr. generalize (lines LF text).1 (lines LF text).2.
  intros ls r Hfree Hr.
  induction Hfree as [|x ls Hx _ IH]; [by apply replace_line_free |].
  change (replace (x ++ LF :: unlines LF ls r) (l ++ [LF]) []
          = (remove_line l x ++ mjoin (remove_line l <$> ls)) ++ r).
  rewrite <- (app_assoc (remove_line l x)), <- IH.
  unfold remove_line. destruct (endswith x l) eqn:He.
  - apply endswith_spec in He as [y ->].
    rewrite length_app, Nat.add_sub, take_app_length.
    rewrite <- (assoc_L (++)).
    apply (replace_line_hit LF y l _ []); [|done].
    intros Hy. apply Hx, elem_of_app. by left.
  - rewrite <- (assoc_L (++)). simpl.
    apply replace_line_miss; [done | done |].
    intros Hs%endswith_spec. congruence.
Qed.

Lemma replace_line_by_line_witness :
  replace scenario_input (call_line ++ [LF]) []
  = mjoin (remove_line call_line <$> (lines LF scenario_input).1)
    ++ (lines LF scenario_input).2.
Proof. apply (replace_line_by_line call_line), call_line_in. Defined.

(** One removal shortens the text by the length of the pattern for each of
    its occurrences. *)
Theorem replace_pattern_length (p text : str) :
  p ∈ patterns →
  length (replace text p []) + occurrences p text * length p = length text.
Proof.
  intros (l & Hl & ->)%patterns_lines.
  pose proof (replace_length_law LF l text [] (pattern_lines_free l Hl)) as H.
  simpl in H. lia.
Qed.

Lemma replace_pattern_length_witness :
  length (replace once_each call_pattern [])
  + occurrences call_pattern once_each * length call_pattern
  = length once_each.
Proof. apply replace_pattern_length, call_pattern_in. Defined.

(** The text after the last newline is never touched, be it the text of a
    pattern: the transform of a text followed by a text without newline is
    the transform of the first followed by the second. *)
Theorem patch_keeps_rest (text rest : str) :
  LF ∉ rest → patch (text ++ rest) = patch text ++ rest.
Proof.
  intros Hr. unfold patch, import_pattern, const_pattern, call_pattern.
  by rewrite !(replace_app_free LF) by done.
Qed.

Lemma patch_keeps_rest_witness :
  patch (scenario_input_nested ++ call_line)
  = patch scenario_input_nested ++ call_line.
Proof. apply patch_keeps_rest, call_line_free. Defined.

(** Texts in which the patterns occur as whole lines only stay so under
    the transform. *)
Theorem whole_lines_patch (text : str) :
  whole_lines text = true → whole_lines (patch text) = true.
Proof.
  intros Hw. pose proof (whole_lines_Forall text Hw) as Hls.
  destruct (lines_free LF text) as [Hfree Hr].
  apply whole_lines_spec. intros l Hl. apply whole_line_spec.
  rewrite patch_whole_lines by done.
  rewrite lines_unlines; [|by apply Forall_filter_keep | done]. simpl.
  apply Forall_filter_keep.
  eapply Forall_impl; [exact Hls |]. intros x [_ Hx]. by apply Hx.
Qed.

Lemma whole_lines_patch_witness :
  whole_lines (patch scenario_input_nested) = true.
Proof. apply whole_lines_patch. reflexivity. Defined.





(** In every run, ended by an error or not, the calls come in the one
    order read, write, print, each at most once and each on the path: no
    file is written that was not read, nothing is printed before the write
    has returned. *)
Theorem run_trace_order (π : process) :
  ∃ data,
    trace (run π).2
    `prefix_of` [ReadText path; WriteText path data;
                 Print (lit "updated index.ts")].
Proof.
  rewrite run_spec.
  destruct (disk π !! path) as [[[] [] c|]|]; cbn [snd trace].
  - by exists (patch c).
  - exists []. by eexists.
  - exists []. apply prefix_nil.
  - exists []. apply prefix_nil.
  - exists []. apply prefix_nil.
  - exists []. apply prefix_nil.
Qed.
